(** * A shallow embedding of [agent.py]

    The module wires a chat model to one web-search tool through a cyclic
    agent/action graph.  Its own logic is the model selector [_get_model]
    (memoised by [functools.lru_cache]), the continuation predicate
    [should_continue], the node function [call_model] and the wiring of the
    graph [workflow].

    Python exceptions are values of [exn]; a computation that touches the
    process state (object allocation, the memoisation cache, calls that leave
    the process) is a function from [World] to a result and a new [World]. *)

From stdpp Require Import base option list strings gmap.
From Stdlib Require Import ZArith.

Local Open Scope string_scope.
Local Open Scope list_scope.
Local Open Scope Z_scope.
Local Open Scope nat_scope.

(** ** Exceptions and results *)

Inductive exn : Type :=
  | ValueError (msg : string)
  | IndexError (msg : string)
  | AttributeError (attr : string)
  | KeyError (key : string)
  | UpstreamError (msg : string).

Inductive Result (A : Type) : Type :=
  | Return (a : A)
  | Raise (e : exn).
Arguments Return {A} a.
Arguments Raise {A} e.

(** ** Messages (langchain_core.messages) *)

Record ToolCall : Type := mkToolCall {
  tc_name : string;
  tc_args : list (string * string);
  tc_id : string
}.

(** The subclasses of [BaseMessage] a conversation holds.  Only an
    [AIMessage] has the attribute [tool_calls]. *)
Inductive BaseMessage : Type :=
  | SystemMessage (content : string)
  | HumanMessage (content : string)
  | AIMessage (content : string) (tool_calls : list ToolCall)
  | ToolMessage (content : string) (tool_call_id : string).

(** What a chat model accepts in its input list: a message object, or a
    [{"role": ..., "content": ...}] dictionary. *)
Inductive MessageLike : Type :=
  | MDict (role content : string)
  | MObj (m : BaseMessage).

(** [class AgentState(TypedDict)]: one key, [messages]. The dictionaries the
    nodes return have the same shape. *)
Record AgentState : Type := mkState { messages : list BaseMessage }.

(** [m.tool_calls] *)
Definition get_tool_calls (m : BaseMessage) : Result (list ToolCall) :=
  match m with
  | AIMessage _ tcs => Return tcs
  | _ => Raise (AttributeError "tool_calls")
  end.

(** [messages[-1]] *)
Definition last_item {A} (l : list A) : Result A :=
  match last l with
  | Some x => Return x
  | None => Raise (IndexError "list index out of range")
  end.

(** Python's truth value of a list. *)
Definition truthy {A} (l : list A) : bool :=
  match l with [] => false | _ :: _ => true end.

(** ** The continuation predicate *)

Definition should_continue (state : AgentState) : Result string :=
  let messages := messages state in
  match last_item messages with
  | Raise e => Raise e
  | Return last_message =>
      match get_tool_calls last_message with
      | Raise e => Raise e
      | Return tool_calls =>
          if negb (truthy tool_calls) then Return "end" else Return "continue"
      end
  end.

(** ** Tools and model clients *)

Inductive Tool : Type :=
  | TavilySearchResults (max_results : Z).

Definition tools : list Tool := [TavilySearchResults 1].

Inductive ChatClass : Type := ChatOpenAI | ChatAnthropic.

(** The keyword arguments a chat model is built with. *)
Record ModelSettings : Type := mkSettings {
  ms_class : ChatClass;
  temperature : Z;
  model_name : string
}.

(** A chat model object: its identity and its settings. *)
Record ChatModel : Type := mkChatModel {
  cm_oid : nat;
  cm_settings : ModelSettings
}.

(** What [model.bind_tools(tools)] returns: a new object that wraps the
    model together with the tools. *)
Record RunnableBinding : Type := mkBinding {
  rb_oid : nat;
  rb_bound : ChatModel;
  rb_tools : list Tool
}.

(** ** The process state *)

Inductive Event : Type :=
  | EConstruct (m : ChatModel)
  | EBind (b : RunnableBinding)
  | EInvoke (b : RunnableBinding) (input : list MessageLike)
  | EToolRun (tc : ToolCall).

Record World : Type := mkWorld {
  next_oid : nat;
  cache : list (string * RunnableBinding);
  trace : list Event
}.

Definition init_world : World :=
  {| next_oid := 0; cache := []; trace := [] |}.

Definition M (A : Type) : Type := World → Result A * World.

Definition ret {A} (a : A) : M A := λ w, (Return a, w).
Definition raise {A} (e : exn) : M A := λ w, (Raise e, w).
Definition bind {A B} (m : M A) (k : A → M B) : M B :=
  λ w, match m w with
       | (Return a, w') => k a w'
       | (Raise e, w') => (Raise e, w')
       end.
Definition lift {A} (r : Result A) : M A := λ w, (r, w).

Notation "x ←ₘ m ; k" := (bind m (λ x, k))
  (at level 100, m at next level, right associativity,
   format "x  ←ₘ  m ; '/' k").

Definition emit (e : Event) : M unit :=
  λ w, (Return tt, {| next_oid := next_oid w; cache := cache w;
                      trace := trace w ++ [e] |}).

Definition fresh_oid : M nat :=
  λ w, (Return (next_oid w), {| next_oid := S (next_oid w); cache := cache w;
                                trace := trace w |}).

Definition set_cache (c : list (string * RunnableBinding)) (w : World) : World :=
  {| next_oid := next_oid w; cache := c; trace := trace w |}.

(** [ChatOpenAI(temperature=..., model_name=...)] and
    [ChatAnthropic(temperature=..., model_name=...)]: building the object
    does not leave the process. *)
Definition new_chat_model (cls : ChatClass) (temp : Z) (name : string) : M ChatModel :=
  oid ←ₘ fresh_oid;
  let m := {| cm_oid := oid;
              cm_settings := {| ms_class := cls; temperature := temp;
                                model_name := name |} |} in
  _ ←ₘ emit (EConstruct m);
  ret m.

Definition bind_tools (m : ChatModel) (ts : list Tool) : M RunnableBinding :=
  oid ←ₘ fresh_oid;
  let b := {| rb_oid := oid; rb_bound := m; rb_tools := ts |} in
  _ ←ₘ emit (EBind b);
  ret b.

(** ** [functools.lru_cache], most recently used entry first *)

Fixpoint assoc {V} (key : string) (c : list (string * V)) : option V :=
  match c with
  | [] => None
  | (k, v) :: c' => if decide (k = key) then Some v else assoc key c'
  end.

Fixpoint drop_key {V} (key : string) (c : list (string * V)) : list (string * V) :=
  match c with
  | [] => []
  | (k, v) :: c' =>
      if decide (k = key) then drop_key key c' else (k, v) :: drop_key key c'
  end.

(** A hit moves the entry to the front. *)
Definition lru_touch {V} (key : string) (v : V) (c : list (string * V)) :=
  (key, v) :: drop_key key c.

(** A miss stores the new entry; a full cache first loses its oldest one. *)
Definition lru_store {V} (maxsize : nat) (key : string) (v : V)
    (c : list (string * V)) :=
  if decide (maxsize ≤ length c)
  then (key, v) :: take (length c - 1) c
  else (key, v) :: c.

(** The decorator.  With [maxsize = 0] nothing is stored; a call that raises
    stores nothing. *)
Definition lru_cache (maxsize : nat) (f : string → M RunnableBinding)
    (key : string) : M RunnableBinding :=
  λ w,
    match maxsize with
    | 0 => f key w
    | S _ =>
        match assoc key (cache w) with
        | Some v => (Return v, set_cache (lru_touch key v (cache w)) w)
        | None =>
            match f key w with
            | (Return v, w') =>
                (Return v, set_cache (lru_store maxsize key v (cache w')) w')
            | (Raise e, w') => (Raise e, w')
            end
        end
    end.

(** ** The model selector *)

Definition _get_model_body (model_name : string) : M RunnableBinding :=
  model ←ₘ (if decide (model_name = "openai") then
              new_chat_model ChatOpenAI 0%Z "gpt-4o"
            else if decide (model_name = "anthropic") then
              new_chat_model ChatAnthropic 0%Z "claude-3-sonnet-20240229"
            else
              raise (ValueError ("Unsupported model type: " +:+ model_name)));
  model ←ₘ bind_tools model tools;
  ret model.

Definition _get_model : string → M RunnableBinding :=
  lru_cache 4 _get_model_body.

(** ** The system prompt *)

Definition system_prompt : string := "
Act like an expert in software system design. You have 20 years of experience in teaching and mentoring users on how to design and implement robust, scalable, and efficient software systems. You have deep knowledge of various design patterns, architectural principles, and best practices in the industry.

Objective: Help users understand and learn software system design comprehensively. This includes explaining key concepts, answering specific questions, providing practical examples, and guiding them through complex problems step-by-step.

Steps:

Introduction to Software System Design:

Explain the fundamental concepts of software system design.
Discuss the importance of designing robust and scalable systems.
Introduce key design patterns and architectural principles.
Key Concepts and Principles:

Detail the core principles of software design (e.g., SOLID principles, modularity, abstraction).
Explain different types of design patterns (e.g., creational, structural, behavioral) with examples.
Describe architectural styles (e.g., monolithic, microservices, event-driven) and their use cases.
Practical Examples and Case Studies:

Provide real-world examples of software system designs.
Discuss successful case studies and analyze their design choices.
Include diagrams and code snippets where necessary.
Interactive Learning:

Answer specific questions users may have about software system design.
Solve complex design problems step-by-step.
Offer exercises and challenges for users to practice their skills.
Advanced Topics:

Cover advanced design topics such as scalability, performance optimization, and security considerations.
Discuss modern trends in software system design, such as cloud-native architectures and containerization.
Review and Feedback:

Encourage users to review and critique existing designs.
Provide constructive feedback on their design attempts.
Offer resources for further learning and improvement.
Take a deep breath and work on this problem step-by-step.
".

(** Python's [d.get(key, default)]. *)
Definition dict_get {V} (d : gmap string V) (key : string) (dflt : V) : V :=
  match d !! key with
  | Some v => v
  | None => dflt
  end.

(** The reducer of the [messages] key belongs to the framework: what a node
    returns is added to the existing list (the comment in [call_model]). *)
Definition add_messages (left right : list BaseMessage) : list BaseMessage :=
  left ++ right.

Definition apply_update (state update : AgentState) : AgentState :=
  {| messages := add_messages (messages state) (messages update) |}.

Definition END : string := "__end__".
Definition START : string := "__start__".

(** ** An example environment

    A model that asks for one web search after a user message and answers
    otherwise, and a tool executor with a fixed result. *)

Definition demo_call : ToolCall :=
  {| tc_name := "tavily_search_results_json";
     tc_args := [("query", "weather in Boston")];
     tc_id := "call_1" |}.

Definition demo_provider (t : nat) (settings : ModelSettings) (ts : list Tool)
    (input : list MessageLike) : string + (string * list ToolCall) :=
  match last input with
  | Some (MObj (HumanMessage _)) => inr ("", [demo_call])
  | _ => inr ("It is sunny in Boston.", [])
  end.

Definition demo_executor (t : nat) (ts : list Tool) (tc : ToolCall) : string :=
  "Boston: sunny".

Definition demo_input : AgentState :=
  {| messages := [HumanMessage "What's the weather in Boston?"] |}.

Definition demo_final : AgentState :=
  {| messages := [HumanMessage "What's the weather in Boston?";
                  AIMessage "" [demo_call];
                  ToolMessage "Boston: sunny" "call_1";
                  AIMessage "It is sunny in Boston." []] |}.

Definition demo_config : gmap string (gmap string string) :=
  {[ "configurable" := {[ "model_name" := "openai" ]} ]}.

(** A model that answers at once, and a provider that is out of service. *)
Definition demo_plain_provider (t : nat) (settings : ModelSettings)
    (ts : list Tool) (input : list MessageLike) :
    string + (string * list ToolCall) :=
  inr ("Hello.", []).

Definition demo_failing_provider (t : nat) (settings : ModelSettings)
    (ts : list Tool) (input : list MessageLike) :
    string + (string * list ToolCall) :=
  inl "overloaded".

Definition demo_hello : AgentState :=
  {| messages := [HumanMessage "Say hello."] |}.

Definition demo_bad_config : gmap string (gmap string string) :=
  {[ "configurable" := {[ "model_name" := "gemini" ]} ]}.

(** The process after it has selected both backends once. *)
Definition demo_world : World :=
  (_get_model "anthropic" (_get_model "openai" init_world).2).2.

Section Agent.

(** The hosted model behind a client: called at a time stamp with the
    client's settings, its bound tools and the message list, it answers
    with the text and the tool calls of one assistant message, or fails
    with an error message.  It sees no object of this process. *)
Variable provider :
  nat → ModelSettings → list Tool → list MessageLike →
  string + (string * list ToolCall).

(** The tool executor: the text a tool call results in. *)
Variable executor : nat → list Tool → ToolCall → string.

(** [model.invoke(messages)] *)
Definition invoke (model : RunnableBinding) (input : list MessageLike) :
    M BaseMessage :=
  λ w,
    let now := length (trace w) in
    let answer :=
      provider now (cm_settings (rb_bound model)) (rb_tools model) input in
    match emit (EInvoke model input) w with
    | (_, w') =>
        match answer with
        | inl msg => (Raise (UpstreamError msg), w')
        | inr (content, tcs) => (Return (AIMessage content tcs), w')
        end
    end.

(** ** The agent node

    [config] is the run configuration, a dictionary whose "configurable"
    section follows [GraphConfig]: one key, "model_name". *)

Definition call_model (state : AgentState)
    (config : gmap string (gmap string string)) : M AgentState :=
  let messages0 := messages state in
  let messages1 :=
    [MDict "system" system_prompt] ++ map MObj messages0 in
  let model_name :=
    dict_get (dict_get config "configurable" ∅) "model_name" "anthropic" in
  model ←ₘ _get_model model_name;
  response ←ₘ invoke model messages1;
  ret {| messages := [response] |}.

(** ** The action node *)

Definition run_tool (ts : list Tool) (tc : ToolCall) : M BaseMessage :=
  λ w,
    let content := executor (length (trace w)) ts tc in
    match emit (EToolRun tc) w with
    | (_, w') => (Return (ToolMessage content (tc_id tc)), w')
    end.

Fixpoint run_tools (ts : list Tool) (tcs : list ToolCall) :
    M (list BaseMessage) :=
  match tcs with
  | [] => ret []
  | tc :: rest =>
      m ←ₘ run_tool ts tc;
      ms ←ₘ run_tools ts rest;
      ret (m :: ms)
  end.

(** Modelled from the spec: [ToolNode] is the framework's prebuilt node,
    not part of this module.  For every tool-call request of the last
    assistant message it runs the tool executor and returns the tool-result
    messages in the order of the requests. *)
Definition ToolNode (ts : list Tool) (state : AgentState)
    (config : gmap string (gmap string string)) : M AgentState :=
  last_message ←ₘ lift (last_item (messages state));
  match last_message with
  | AIMessage _ tcs =>
      ms ←ₘ run_tools ts tcs;
      ret {| messages := ms |}
  | _ => raise (ValueError "Last message is not an AIMessage")
  end.

Definition tool_node := ToolNode tools.

(** ** The graph

    [StateGraph] and its compiled form belong to the framework.  A graph is
    kept as the nodes, plain edges and conditional edges the builder calls
    record; how a run uses them follows the comments at the builder calls:
    the entry point is the first node called, after a node with a
    conditional edge its function is called and the outcome looked up in the
    mapping, and after a node with a plain edge the target is called next. *)

Definition NodeFn : Type :=
  AgentState → gmap string (gmap string string) → M AgentState.

Record StateGraph : Type := mkGraph {
  nodes : gmap string NodeFn;
  edges : gmap string string;
  branches : gmap string ((AgentState → Result string) * gmap string string)
}.

Definition new_StateGraph : StateGraph :=
  {| nodes := ∅; edges := ∅; branches := ∅ |}.

Definition add_node (name : string) (fn : NodeFn) (g : StateGraph) :=
  {| nodes := <[name := fn]> (nodes g); edges := edges g;
     branches := branches g |}.

Definition add_edge (source target : string) (g : StateGraph) :=
  {| nodes := nodes g; edges := <[source := target]> (edges g);
     branches := branches g |}.

Definition set_entry_point (name : string) (g : StateGraph) :=
  add_edge START name g.

Definition add_conditional_edges (source : string)
    (path : AgentState → Result string) (path_map : gmap string string)
    (g : StateGraph) :=
  {| nodes := nodes g; edges := edges g;
     branches := <[source := (path, path_map)]> (branches g) |}.

Definition workflow : StateGraph :=
  add_edge "action" "agent"
    (add_conditional_edges "agent" should_continue
       (<["continue" := "action"]> (<["end" := END]> ∅))
       (set_entry_point "agent"
          (add_node "action" tool_node
             (add_node "agent" call_model new_StateGraph)))).

(** The node that runs after [cur]: the conditional edge of [cur] calls its
    function on the state and looks the outcome up in its mapping; without
    one, the plain edge of [cur] is taken. *)
Definition route (g : StateGraph) (cur : string) (state : AgentState) :
    Result string :=
  match branches g !! cur with
  | Some (path, path_map) =>
      match path state with
      | Raise e => Raise e
      | Return key =>
          match path_map !! key with
          | Some target => Return target
          | None => Raise (KeyError key)
          end
      end
  | None =>
      match edges g !! cur with
      | Some target => Return target
      | None => Raise (KeyError cur)
      end
  end.

(** One step of a run: call the node, add what it returns to the state,
    choose the next node. *)
Definition step (g : StateGraph) (config : gmap string (gmap string string))
    (cur : string) (state : AgentState) : M (string * AgentState) :=
  match nodes g !! cur with
  | None => raise (KeyError cur)
  | Some fn =>
      update ←ₘ fn state config;
      let state' := apply_update state update in
      next ←ₘ lift (route g cur state');
      ret (next, state')
  end.

(** A run of at most [fuel] steps from node [cur]; [None] when the steps
    are used up before the end node is reached. *)
Fixpoint run (fuel : nat) (g : StateGraph)
    (config : gmap string (gmap string string))
    (cur : string) (state : AgentState) : M (option AgentState) :=
  if decide (cur = END) then ret (Some state)
  else
    match fuel with
    | 0 => ret None
    | S fuel' =>
        ns ←ₘ step g config cur state;
        run fuel' g config ns.1 ns.2
    end.

(** [graph = workflow.compile()], then [graph.invoke(input, config)]. *)
Definition graph (fuel : nat) (input : AgentState)
    (config : gmap string (gmap string string)) : M (option AgentState) :=
  first ←ₘ lift (route workflow START input);
  run fuel workflow config first (apply_update {| messages := [] |} input).

(** ** What a process can do to the world *)

Inductive pstep : World → World → Prop :=
  | pstep_get_model name w :
      pstep w (_get_model name w).2
  | pstep_call_model state config w :
      pstep w (call_model state config w).2
  | pstep_tool_node state config w :
      pstep w (tool_node state config w).2.

(** The worlds a process reaches from its start. *)
Definition reachable (w : World) : Prop := rtc pstep init_world w.

(** ** Notions used in the statements *)

Definition supported (name : string) : Prop :=
  name = "openai" ∨ name = "anthropic".

Definition settings_for (name : string) : ModelSettings :=
  if decide (name = "openai")
  then {| ms_class := ChatOpenAI; temperature := 0;
          model_name := "gpt-4o" |}
  else {| ms_class := ChatAnthropic; temperature := 0;
          model_name := "claude-3-sonnet-20240229" |}.

(** The client a cache miss on a supported name builds in [w]. *)
Definition fresh_binding (name : string) (w : World) : RunnableBinding :=
  {| rb_oid := S (next_oid w);
     rb_bound := {| cm_oid := next_oid w; cm_settings := settings_for name |};
     rb_tools := tools |}.

(** The world after a cache miss on a supported name has built its client. *)
Definition built_world (name : string) (w : World) : World :=
  {| next_oid := S (S (next_oid w));
     cache := cache w;
     trace := (trace w ++ [EConstruct (rb_bound (fresh_binding name w))])
              ++ [EBind (fresh_binding name w)] |}.

(** The two expressions [call_model] computes before it calls out: the
    backend name read from the configuration, and the message list sent to
    the model. *)
Definition selected_name (config : gmap string (gmap string string)) : string :=
  dict_get (dict_get config "configurable" ∅) "model_name" "anthropic".

Definition outgoing (state : AgentState) : list MessageLike :=
  [MDict "system" system_prompt] ++ map MObj (messages state).

(** The model and the tools answer the same question the same way at
    every time. *)
Definition deterministic : Prop :=
  (∀ t t' settings ts input,
      provider t settings ts input = provider t' settings ts input) ∧
  (∀ t t' ts tc, executor t ts tc = executor t' ts tc).

Definition entry_ok (kv : string * RunnableBinding) : Prop :=
  supported kv.1 ∧
  cm_settings (rb_bound kv.2) = settings_for kv.1 ∧
  rb_tools kv.2 = tools.

Definition cache_ok (c : list (string * RunnableBinding)) : Prop :=
  NoDup c.*1 ∧ Forall entry_ok c.

(** The message lists handed to a model in a stretch of the trace. *)
Definition invocations (t : list Event) : list (list MessageLike) :=
  omap (λ e, match e with EInvoke _ input => Some input | _ => None end) t.

(** Whether an event is the construction of a chat model of class [cls]. *)
Definition is_build (cls : ChatClass) (e : Event) : bool :=
  match e with
  | EConstruct m =>
      match ms_class (cm_settings m), cls with
      | ChatOpenAI, ChatOpenAI | ChatAnthropic, ChatAnthropic => true
      | _, _ => false
      end
  | _ => false
  end.

(** The number of chat models of class [cls] built in a stretch of the
    trace. *)
Fixpoint built (cls : ChatClass) (t : list Event) : nat :=
  match t with
  | [] => 0
  | e :: t' => (if is_build cls e then 1 else 0) + built cls t'
  end.

(** 1 when [name] has an entry in the cache list, 0 otherwise. *)
Definition cached (name : string) (c : list (string * RunnableBinding)) : nat :=
  match assoc name c with
  | Some _ => 1
  | None => 0
  end.

(** Every chat model built so far is the one the cache holds for its name. *)
Definition built_ok (w : World) : Prop :=
  built ChatOpenAI (trace w) = cached "openai" (cache w) ∧
  built ChatAnthropic (trace w) = cached "anthropic" (cache w).

(** ** Facts about the cache list *)

Lemma assoc_elem {V} key (v : V) c : assoc key c = Some v → (key, v) ∈ c.
Proof.
  induction c as [|[k x] c IH]; simpl; [done|].
  case_decide; intros Hv.
  - simplify_eq. apply list_elem_of_here.
  - apply list_elem_of_further. auto.
Qed.

Lemma assoc_None {V} key (c : list (string * V)) :
  assoc key c = None ↔ key ∉ c.*1.
Proof.
  induction c as [|[k x] c IH]; simpl.
  - split; [intros _; apply not_elem_of_nil | done].
  - case_decide; subst.
    + split; [done|]. intros Hn. exfalso. apply Hn, list_elem_of_here.
    + rewrite IH, not_elem_of_cons.
      split; [intros Hn; split; [congruence | done] | by intros [_ Hn]].
Qed.

Lemma assoc_is_Some {V} key (c : list (string * V)) :
  key ∈ c.*1 → is_Some (assoc key c).
Proof.
  intros Hin. destruct (assoc key c) eqn:E; [eauto|].
  apply assoc_None in E. done.
Qed.

Lemma drop_key_sublist {V} key (c : list (string * V)) :
  drop_key key c `sublist_of` c.
Proof.
  induction c as [|[k x] c IH]; simpl; [constructor|].
  case_decide; by constructor.
Qed.

Lemma drop_key_not_elem {V} key (c : list (string * V)) :
  key ∉ (drop_key key c).*1.
Proof.
  induction c as [|[k x] c IH]; simpl; [apply not_elem_of_nil|].
  case_decide; [done|]. rewrite fmap_cons, not_elem_of_cons. done.
Qed.

Lemma assoc_drop_key_ne {V} key key' (c : list (string * V)) :
  key ≠ key' → assoc key' (drop_key key c) = assoc key' c.
Proof.
  intros Hne. induction c as [|[k x] c IH]; simpl; [done|].
  repeat (case_decide; simpl; subst); done.
Qed.

Lemma drop_key_length_lt {V} key (c : list (string * V)) :
  key ∈ c.*1 → length (drop_key key c) < length c.
Proof.
  induction c as [|[k x] c IH]; simpl.
  - intros H. by apply elem_of_nil in H.
  - intros Hin. case_decide.
    + pose proof (sublist_length _ _ (drop_key_sublist key c)). lia.
    + apply elem_of_cons in Hin as [?|Hin]; [done|].
      simpl. specialize (IH Hin). lia.
Qed.

(** The bound of the decorator: a hit does not grow the list, and a store
    into a list of at most [maxsize] entries leaves at most [maxsize]. *)
Lemma lru_touch_length {V} key (v : V) c :
  assoc key c = Some v → length (lru_touch key v c) ≤ length c.
Proof.
  intros Hv. unfold lru_touch. simpl.
  apply drop_key_length_lt.
  apply assoc_elem in Hv. apply (list_elem_of_fmap_2 fst) in Hv. done.
Qed.

Lemma lru_store_length {V} maxsize key (v : V) c :
  0 < maxsize → length c ≤ maxsize →
  length (lru_store maxsize key v c) ≤ maxsize.
Proof.
  intros Hpos Hle. unfold lru_store. case_decide; simpl.
  - rewrite length_take. lia.
  - lia.
Qed.

Lemma sublist_Forall {A} (P : A → Prop) (l k : list A) :
  l `sublist_of` k → Forall P k → Forall P l.
Proof.
  intros Hs Hk. rewrite Forall_forall in *. intros x Hx.
  apply Hk. by eapply elem_of_sublist.
Qed.

Lemma cache_ok_sublist c c' :
  c' `sublist_of` c → cache_ok c → cache_ok c'.
Proof.
  intros Hs [Hnd Hall]. split.
  - eapply sublist_NoDup; [done|]. by apply fmap_sublist.
  - by eapply sublist_Forall.
Qed.

Lemma cache_ok_cons key v c :
  key ∉ c.*1 → entry_ok (key, v) → cache_ok c → cache_ok ((key, v) :: c).
Proof.
  intros Hnot Hok [Hnd Hall]. split.
  - rewrite fmap_cons. by constructor.
  - by constructor.
Qed.

Lemma cache_ok_entry key v c :
  cache_ok c → assoc key c = Some v → entry_ok (key, v).
Proof.
  intros [_ Hall] Hv. apply assoc_elem in Hv.
  rewrite Forall_forall in Hall. by apply Hall.
Qed.

Lemma cache_ok_touch key v c :
  cache_ok c → assoc key c = Some v → cache_ok (lru_touch key v c).
Proof.
  intros Hok Hv. apply cache_ok_cons.
  - apply drop_key_not_elem.
  - by eapply cache_ok_entry.
  - eapply cache_ok_sublist; [apply drop_key_sublist | done].
Qed.

Lemma cache_ok_store maxsize key v c :
  cache_ok c → assoc key c = None → entry_ok (key, v) →
  cache_ok (lru_store maxsize key v c).
Proof.
  intros Hok Hnone Hent. apply assoc_None in Hnone.
  unfold lru_store. case_decide; apply cache_ok_cons; try done.
  - intros Hin. apply Hnone.
    eapply elem_of_sublist; [exact Hin|].
    apply fmap_sublist, sublist_take.
  - eapply cache_ok_sublist; [apply sublist_take | done].
Qed.

(** Only two names are ever stored, so a correct cache holds at most two
    entries and a store never evicts. *)
Lemma cache_ok_length c : cache_ok c → length c ≤ 2.
Proof.
  intros [Hnd Hall].
  assert (c.*1 ⊆+ ["openai"; "anthropic"]) as Hsub.
  { apply NoDup_submseteq; [done|]. intros k Hk.
    apply list_elem_of_fmap in Hk as [[k' v] [-> Hkv]].
    rewrite Forall_forall in Hall. destruct (Hall _ Hkv) as [[Hs|Hs] _];
      simpl in Hs; subst; set_solver. }
  apply submseteq_length in Hsub. rewrite length_fmap in Hsub. done.
Qed.

Lemma cache_ok_unsupported key c :
  cache_ok c → ¬ supported key → assoc key c = None.
Proof.
  intros Hok Hns. destruct (assoc key c) as [v|] eqn:E; [|done].
  destruct (cache_ok_entry _ _ _ Hok E) as [Hs _]. done.
Qed.

(** ** Facts about the model selector *)

Lemma get_model_body_supported name w :
  supported name →
  _get_model_body name w = (Return (fresh_binding name w), built_world name w).
Proof. intros [-> | ->]; reflexivity. Qed.

Lemma get_model_body_unsupported name w :
  ¬ supported name →
  _get_model_body name w =
    (Raise (ValueError ("Unsupported model type: " +:+ name)), w).
Proof.
  intros Hn. unfold _get_model_body.
  destruct (decide (name = "openai")) as [->|_].
  { exfalso. apply Hn. by left. }
  destruct (decide (name = "anthropic")) as [->|_].
  { exfalso. apply Hn. by right. }
  reflexivity.
Qed.

Lemma supported_dec name : {supported name} + {¬ supported name}.
Proof.
  destruct (decide (name = "openai")); [left; by left|].
  destruct (decide (name = "anthropic")); [left; by right|].
  right. by intros [?|?].
Qed.

Lemma get_model_hit name b w :
  assoc name (cache w) = Some b →
  _get_model name w = (Return b, set_cache (lru_touch name b (cache w)) w).
Proof. intros Hb. unfold _get_model, lru_cache. by rewrite Hb. Qed.

Lemma get_model_miss name w :
  assoc name (cache w) = None → supported name →
  _get_model name w =
    (Return (fresh_binding name w),
     set_cache (lru_store 4 name (fresh_binding name w) (cache w))
       (built_world name w)).
Proof.
  intros Hb Hs. unfold _get_model, lru_cache.
  by rewrite Hb, get_model_body_supported.
Qed.

Lemma get_model_miss_unsupported name w :
  assoc name (cache w) = None → ¬ supported name →
  _get_model name w =
    (Raise (ValueError ("Unsupported model type: " +:+ name)), w).
Proof.
  intros Hb Hs. unfold _get_model, lru_cache.
  by rewrite Hb, get_model_body_unsupported.
Qed.

Lemma fresh_binding_ok name w : supported name → entry_ok (name, fresh_binding name w).
Proof. intros Hs. by repeat split. Qed.

(** The three ways a call can go. *)
Lemma get_model_cases name w :
  (∃ b, assoc name (cache w) = Some b ∧
        _get_model name w =
          (Return b, set_cache (lru_touch name b (cache w)) w)) ∨
  (assoc name (cache w) = None ∧ supported name ∧
   _get_model name w =
     (Return (fresh_binding name w),
      set_cache (lru_store 4 name (fresh_binding name w) (cache w))
        (built_world name w))) ∨
  (assoc name (cache w) = None ∧ ¬ supported name ∧
   _get_model name w =
     (Raise (ValueError ("Unsupported model type: " +:+ name)), w)).
Proof.
  destruct (assoc name (cache w)) as [b|] eqn:Hb.
  - left. eauto using get_model_hit.
  - right. destruct (supported_dec name).
    + left. eauto using get_model_miss.
    + right. eauto using get_model_miss_unsupported.
Qed.

Lemma get_model_cache_le name w :
  length (cache w) ≤ 4 → length (cache (_get_model name w).2) ≤ 4.
Proof.
  intros Hle.
  destruct (get_model_cases name w) as [(b & Hb & ->)|[(Hb & Hs & ->)|(Hb & Hs & ->)]];
    simpl; [| |done].
  - pose proof (lru_touch_length name b (cache w) Hb) as Ht.
    unfold lru_touch in *. simpl in *. lia.
  - apply lru_store_length; [lia | done].
Qed.

Lemma get_model_cache_ok name w :
  cache_ok (cache w) → cache_ok (cache (_get_model name w).2).
Proof.
  intros Hok.
  destruct (get_model_cases name w) as [(b & Hb & ->)|[(Hb & Hs & ->)|(Hb & Hs & ->)]];
    simpl; [| |done].
  - by apply cache_ok_touch.
  - apply cache_ok_store; [done | done | by apply fresh_binding_ok].
Qed.

(** An entry of a correct cache outlives every later call. *)
Lemma get_model_keeps name key b w :
  cache_ok (cache w) → assoc key (cache w) = Some b →
  assoc key (cache (_get_model name w).2) = Some b.
Proof.
  intros Hok Hkey.
  destruct (get_model_cases name w) as [(b' & Hb & ->)|[(Hb & Hs & ->)|(Hb & Hs & ->)]];
    simpl; [| |done].
  - unfold lru_touch. simpl. destruct (decide (name = key)) as [->|Hne].
    + congruence.
    + by rewrite assoc_drop_key_ne.
  - unfold lru_store. apply cache_ok_length in Hok as Hlen.
    rewrite decide_False by lia. simpl.
    rewrite decide_False by congruence. done.
Qed.

(** What a successful call returns is stored under its name and has the
    settings of that name. *)
Lemma get_model_returns name b w w' :
  cache_ok (cache w) → _get_model name w = (Return b, w') →
  entry_ok (name, b) ∧ assoc name (cache w') = Some b.
Proof.
  intros Hok Heq.
  destruct (get_model_cases name w) as [(b' & Hb & E)|[(Hb & Hs & E)|(Hb & Hs & E)]];
    rewrite E in Heq; simplify_eq; simpl.
  - split; [by eapply cache_ok_entry|].
    unfold lru_touch. simpl. by rewrite decide_True.
  - split; [by apply fresh_binding_ok|].
    unfold lru_store. case_decide; simpl; by rewrite decide_True.
Qed.

Lemma get_model_supported name w :
  cache_ok (cache w) → supported name →
  ∃ b w', _get_model name w = (Return b, w').
Proof.
  intros Hok Hs.
  destruct (get_model_cases name w) as [(b' & Hb & E)|[(Hb & _ & E)|(Hb & Hn & E)]];
    [eauto | eauto | done].
Qed.

Lemma get_model_unsupported name w :
  cache_ok (cache w) → ¬ supported name →
  _get_model name w =
    (Raise (ValueError ("Unsupported model type: " +:+ name)), w).
Proof.
  intros Hok Hn. apply get_model_miss_unsupported; [|done].
  by apply cache_ok_unsupported.
Qed.

(** ** Facts about the nodes *)

Lemma call_model_unfold state config w :
  call_model state config w =
    match _get_model (selected_name config) w with
    | (Return model, w1) =>
        match invoke model (outgoing state) w1 with
        | (Return response, w2) => (Return {| messages := [response] |}, w2)
        | (Raise e, w2) => (Raise e, w2)
        end
    | (Raise e, w1) => (Raise e, w1)
    end.
Proof. reflexivity. Qed.

Lemma invoke_unfold model input w :
  invoke model input w =
    (match provider (length (trace w)) (cm_settings (rb_bound model))
             (rb_tools model) input with
     | inl msg => Raise (UpstreamError msg)
     | inr (content, tcs) => Return (AIMessage content tcs)
     end,
     {| next_oid := next_oid w; cache := cache w;
        trace := trace w ++ [EInvoke model input] |}).
Proof.
  unfold invoke, emit.
  destruct (provider _ _ _ _) as [msg|[content tcs]]; reflexivity.
Qed.

Lemma call_model_cache state config w :
  cache (call_model state config w).2 =
  cache (_get_model (selected_name config) w).2.
Proof.
  rewrite call_model_unfold.
  destruct (_get_model _ w) as [[model|e] w1]; [|done].
  rewrite invoke_unfold.
  destruct (provider _ _ _ _) as [msg|[content tcs]]; reflexivity.
Qed.

(** Running the tools builds no object, touches no cache entry and calls
    no model; it yields one message per request. *)
Lemma run_tools_spec ts tcs w :
  ∃ ms new,
    run_tools ts tcs w =
      (Return ms, {| next_oid := next_oid w; cache := cache w;
                     trace := trace w ++ new |}) ∧
    invocations new = [] ∧
    Forall2 (λ tc m, ∃ content, m = ToolMessage content (tc_id tc)) tcs ms.
Proof.
  revert w. induction tcs as [|tc tcs IH]; intros w; simpl.
  - exists [], []. rewrite app_nil_r. destruct w; repeat split; constructor.
  - unfold bind at 1. unfold run_tool at 1, emit. simpl.
    set (w1 := {| next_oid := next_oid w; cache := cache w;
                  trace := trace w ++ [EToolRun tc] |}).
    destruct (IH w1) as (ms & new & Heq & Hinv & Hall).
    unfold bind. rewrite Heq. simpl.
    eexists _, (EToolRun tc :: new). split; [|split].
    + unfold ret. by rewrite <- app_assoc.
    + done.
    + constructor; eauto.
Qed.

Lemma tool_node_cache state config w :
  cache (tool_node state config w).2 = cache w.
Proof.
  unfold tool_node, ToolNode, bind, lift.
  destruct (last_item (messages state)) as [[| |content tcs|]|e]; try done.
  destruct (run_tools_spec tools tcs w) as (ms & new & -> & _). done.
Qed.

(** ** Invariants of the process *)

Lemma pstep_cache_ok w w' :
  pstep w w' → cache_ok (cache w) → cache_ok (cache w').
Proof.
  intros [name w0|state config w0|state config w0] Hok.
  - by apply get_model_cache_ok.
  - rewrite call_model_cache. by apply get_model_cache_ok.
  - by rewrite tool_node_cache.
Qed.

Lemma pstep_cache_le w w' :
  pstep w w' → length (cache w) ≤ 4 → length (cache w') ≤ 4.
Proof.
  intros [name w0|state config w0|state config w0] Hok.
  - by apply get_model_cache_le.
  - rewrite call_model_cache. by apply get_model_cache_le.
  - by rewrite tool_node_cache.
Qed.

Lemma pstep_keeps key b w w' :
  pstep w w' → cache_ok (cache w) → assoc key (cache w) = Some b →
  assoc key (cache w') = Some b.
Proof.
  intros [name w0|state config w0|state config w0] Hok Hkey.
  - by apply get_model_keeps.
  - rewrite call_model_cache. by apply get_model_keeps.
  - by rewrite tool_node_cache.
Qed.

Lemma psteps_cache_ok w w' :
  rtc pstep w w' → cache_ok (cache w) → cache_ok (cache w').
Proof. induction 1; eauto using pstep_cache_ok. Qed.

Lemma psteps_cache_le w w' :
  rtc pstep w w' → length (cache w) ≤ 4 → length (cache w') ≤ 4.
Proof. induction 1; eauto using pstep_cache_le. Qed.

Lemma psteps_keeps key b w w' :
  rtc pstep w w' → cache_ok (cache w) → assoc key (cache w) = Some b →
  assoc key (cache w') = Some b.
Proof. induction 1; eauto using pstep_keeps, pstep_cache_ok. Qed.

Lemma cache_ok_nil : cache_ok [].
Proof. split; constructor. Qed.

Lemma reachable_cache_ok w : reachable w → cache_ok (cache w).
Proof. intros Hr. eapply psteps_cache_ok; [exact Hr | apply cache_ok_nil]. Qed.

Lemma reachable_cache_le w : reachable w → length (cache w) ≤ 4.
Proof. intros Hr. eapply psteps_cache_le; [exact Hr | simpl; lia]. Qed.

(** ** The continuation predicate *)

Lemma last_item_last {A} (l : list A) x : last l = Some x → last_item l = Return x.
Proof. intros H. unfold last_item. by rewrite H. Qed.

(** C1: on a state whose last message is an assistant message,
    [should_continue] returns "end" when that message carries no tool-call
    request and "continue" when it carries one or more; it returns no other
    value. *)
Theorem should_continue_assistant state content tcs :
  last (messages state) = Some (AIMessage content tcs) →
  (length tcs = 0 → should_continue state = Return "end") ∧
  (1 ≤ length tcs → should_continue state = Return "continue") ∧
  (∀ r, should_continue state = Return r → r = "end" ∨ r = "continue").
Proof.
  intros Hlast. unfold should_continue.
  rewrite (last_item_last _ _ Hlast). simpl.
  destruct tcs as [|tc tcs]; simpl; repeat split; intros; try lia;
    simplify_eq; auto.
Qed.

(** C6: on the empty state [should_continue] returns neither "continue"
    nor "end": indexing the last message raises at once. *)
Theorem should_continue_empty :
  should_continue {| messages := [] |} =
    Raise (IndexError "list index out of range") ∧
  (∀ r, should_continue {| messages := [] |} ≠ Return r).
Proof. split; [reflexivity | intros r; discriminate]. Qed.

(** ** The model selector *)

(** C2: for a backend name other than "anthropic" and "openai",
    [_get_model] raises the unsupported-backend error and leaves the world
    as it was: no client object is built, nothing is stored and no model is
    called; [call_model] with such a name fails the same way before it
    calls a model. *)
Theorem get_model_rejects_unsupported name w :
  reachable w → name ≠ "anthropic" → name ≠ "openai" →
  _get_model name w =
    (Raise (ValueError ("Unsupported model type: " +:+ name)), w) ∧
  (∀ state config, selected_name config = name →
     call_model state config w =
       (Raise (ValueError ("Unsupported model type: " +:+ name)), w)).
Proof.
  intros Hr Ha Ho.
  assert (¬ supported name) as Hn by (intros [?|?]; done).
  pose proof (get_model_unsupported name w (reachable_cache_ok w Hr) Hn) as E.
  split; [exact E|].
  intros state config <-. rewrite call_model_unfold. by rewrite E.
Qed.

(** C8: for each of the two supported names the client is built with
    temperature zero and bound to exactly one tool, the web search with at
    most one result; the memoised selector returns such a client. *)
Theorem get_model_settings name w :
  supported name →
  (∃ b w', _get_model_body name w = (Return b, w') ∧
     temperature (cm_settings (rb_bound b)) = 0%Z ∧
     rb_tools b = [TavilySearchResults 1] ∧
     trace w' = trace w ++ [EConstruct (rb_bound b); EBind b]) ∧
  (reachable w →
   ∃ b w', _get_model name w = (Return b, w') ∧
     temperature (cm_settings (rb_bound b)) = 0%Z ∧
     rb_tools b = [TavilySearchResults 1]).
Proof.
  intros Hs. split.
  - exists (fresh_binding name w), (built_world name w).
    split; [by apply get_model_body_supported|].
    simpl. rewrite <- app_assoc.
    destruct Hs as [-> | ->]; done.
  - intros Hr. apply reachable_cache_ok in Hr.
    destruct (get_model_supported name w Hr Hs) as (b & w' & E).
    exists b, w'. split; [done|].
    destruct (get_model_returns _ _ _ _ Hr E) as [(_ & Hset & Htools) _].
    simpl in *. rewrite Hset, Htools.
    destruct Hs as [-> | ->]; done.
Qed.

(** C5: for a supported name, a call returns a client, and every later call
    in the process returns that same object; the cache holds at most four
    entries throughout. *)
Theorem get_model_memoized name w :
  reachable w → supported name →
  length (cache w) ≤ 4 ∧
  ∃ b w1, _get_model name w = (Return b, w1) ∧
    ∀ w2, rtc pstep w1 w2 →
      (_get_model name w2).1 = Return b ∧ length (cache w2) ≤ 4.
Proof.
  intros Hr Hs. split; [by apply reachable_cache_le|].
  pose proof (reachable_cache_ok w Hr) as Hok.
  destruct (get_model_supported name w Hok Hs) as (b & w1 & E).
  exists b, w1. split; [done|]. intros w2 Hsteps.
  destruct (get_model_returns _ _ _ _ Hok E) as [_ Hb].
  assert (w1 = (_get_model name w).2) as Hw1 by (by rewrite E).
  assert (cache_ok (cache w1)) as Hok1.
  { rewrite Hw1. by apply get_model_cache_ok. }
  split.
  - pose proof (psteps_keeps _ _ _ _ Hsteps Hok1 Hb) as Hb2.
    by rewrite (get_model_hit _ _ _ Hb2).
  - eapply psteps_cache_le; [exact Hsteps|].
    rewrite Hw1. apply get_model_cache_le. by apply reachable_cache_le.
Qed.

(** ** The agent node *)

Lemma invocations_app t1 t2 :
  invocations (t1 ++ t2) = invocations t1 ++ invocations t2.
Proof. unfold invocations. apply omap_app. Qed.

(** How a call of [call_model] goes: the name is rejected and nothing
    happens, or the selected client is invoked once on [outgoing state]. *)
Lemma call_model_cases state config w :
  (¬ supported (selected_name config) ∧
   call_model state config w =
     (Raise (ValueError ("Unsupported model type: " +:+ selected_name config)),
      w)) ∨
  (∃ b w1 pre,
     supported (selected_name config) ∧
     _get_model (selected_name config) w = (Return b, w1) ∧
     trace w1 = trace w ++ pre ∧ invocations pre = [] ∧
     call_model state config w =
       (match provider (length (trace w1)) (cm_settings (rb_bound b))
                (rb_tools b) (outgoing state) with
        | inl msg => Raise (UpstreamError msg)
        | inr (content, tcs) =>
            Return {| messages := [AIMessage content tcs] |}
        end,
        {| next_oid := next_oid w1; cache := cache w1;
           trace := trace w1 ++ [EInvoke b (outgoing state)] |})) ∨
  (∃ b, ¬ supported (selected_name config) ∧
        assoc (selected_name config) (cache w) = Some b).
Proof.
  rewrite call_model_unfold.
  destruct (get_model_cases (selected_name config) w)
    as [(b & Hb & E)|[(Hb & Hs & E)|(Hb & Hs & E)]].
  - destruct (supported_dec (selected_name config)) as [Hs|Hs]; [|eauto].
    right. left. eexists b, _, []. rewrite E, invoke_unfold.
    split; [done|]. split; [done|]. split; [by rewrite app_nil_r|].
    split; [done|].
    destruct (provider _ _ _ _) as [msg|[content tcs]]; reflexivity.
  - right. left. eexists _, _, _. rewrite E, invoke_unfold.
    split; [done|]. split; [done|]. split; [|split].
    + simpl. by rewrite <- app_assoc.
    + done.
    + destruct (provider _ _ _ _) as [msg|[content tcs]]; reflexivity.
  - left. by rewrite E.
Qed.

Lemma call_model_cases_ok state config w :
  cache_ok (cache w) →
  (¬ supported (selected_name config) ∧
   call_model state config w =
     (Raise (ValueError ("Unsupported model type: " +:+ selected_name config)),
      w)) ∨
  (∃ b w1 pre,
     supported (selected_name config) ∧
     _get_model (selected_name config) w = (Return b, w1) ∧
     trace w1 = trace w ++ pre ∧ invocations pre = [] ∧
     call_model state config w =
       (match provider (length (trace w1)) (cm_settings (rb_bound b))
                (rb_tools b) (outgoing state) with
        | inl msg => Raise (UpstreamError msg)
        | inr (content, tcs) =>
            Return {| messages := [AIMessage content tcs] |}
        end,
        {| next_oid := next_oid w1; cache := cache w1;
           trace := trace w1 ++ [EInvoke b (outgoing state)] |})).
Proof.
  intros Hok.
  destruct (call_model_cases state config w) as [H|[H|(b & Hn & Hb)]]; auto.
  rewrite (cache_ok_unsupported _ _ Hok Hn) in Hb. done.
Qed.

(** What [call_model] returns is one assistant message. *)
Lemma call_model_returns state config w update w' :
  call_model state config w = (Return update, w') →
  ∃ content tcs, update = {| messages := [AIMessage content tcs] |}.
Proof.
  rewrite call_model_unfold.
  destruct (_get_model _ w) as [[model|e] w1]; [|done].
  rewrite invoke_unfold.
  destruct (provider _ _ _ _) as [msg|[content tcs]]; [done|].
  intros [= <- <-]. eauto.
Qed.

(** C3: the message list [call_model] hands to the model is the fixed
    system message followed by the messages of the state, unchanged and in
    order; what it returns holds the model's answer alone, so the state
    after the step is the old list with that answer at its end and the
    system message is not stored. *)
Theorem call_model_prompt state config w :
  ∃ new,
    trace (call_model state config w).2 = trace w ++ new ∧
    (∀ input, input ∈ invocations new →
       input = MDict "system" system_prompt :: map MObj (messages state)) ∧
    (∀ update, (call_model state config w).1 = Return update →
       invocations new =
         [MDict "system" system_prompt :: map MObj (messages state)] ∧
       ∃ content tcs,
         update = {| messages := [AIMessage content tcs] |} ∧
         messages (apply_update state update) =
           messages state ++ [AIMessage content tcs]).
Proof.
  rewrite call_model_unfold.
  destruct (get_model_cases (selected_name config) w)
    as [(b & Hb & E)|[(Hb & Hs & E)|(Hb & Hs & E)]]; rewrite E; clear E.
  - rewrite invoke_unfold. exists [EInvoke b (outgoing state)].
    destruct (provider _ _ _ _) as [msg|[content tcs]]; simpl;
      (split; [done|]); (split; [by intros input ->%list_elem_of_singleton|]);
      intros update [= <-]; eauto.
  - rewrite invoke_unfold.
    set (fb := fresh_binding (selected_name config) w).
    exists [EConstruct (rb_bound fb); EBind fb; EInvoke fb (outgoing state)].
    destruct (provider _ _ _ _) as [msg|[content tcs]]; simpl;
      (split; [by rewrite <- !app_assoc|]);
      (split; [by intros input ->%list_elem_of_singleton|]);
      intros update [= <-]; eauto.
  - exists []. simpl. split; [by rewrite app_nil_r|].
    split; [by intros input Hin%elem_of_nil | done].
Qed.

(** C10: when the configuration has no "configurable" section, or that
    section has no "model_name", [call_model] selects the "anthropic"
    backend: it behaves as with that name spelled out, no configuration
    error is raised, and the Anthropic client is the one invoked. *)
Theorem call_model_default_backend state config w :
  reachable w →
  (config !! "configurable" = None ∨
   ∃ section, config !! "configurable" = Some section ∧
              section !! "model_name" = None) →
  selected_name config = "anthropic" ∧
  call_model state config w =
    call_model state {[ "configurable" := {[ "model_name" := "anthropic" ]} ]} w ∧
  ∃ b w1,
    _get_model "anthropic" w = (Return b, w1) ∧
    ms_class (cm_settings (rb_bound b)) = ChatAnthropic ∧
    trace (call_model state config w).2 =
      trace w1 ++ [EInvoke b (outgoing state)] ∧
    ((∃ content tcs,
        (call_model state config w).1 =
          Return {| messages := [AIMessage content tcs] |}) ∨
     (∃ msg, (call_model state config w).1 = Raise (UpstreamError msg))).
Proof.
  intros Hr Hcfg.
  assert (selected_name config = "anthropic") as Hsel.
  { unfold selected_name, dict_get.
    destruct Hcfg as [->|(section & -> & ->)]; done. }
  split; [done|]. split.
  { rewrite !call_model_unfold, Hsel. reflexivity. }
  apply reachable_cache_ok in Hr.
  destruct (call_model_cases_ok state config w Hr)
    as [[Hn _]|(b & w1 & pre & Hs & E & Ht & Hpre & Hcall)].
  { exfalso. apply Hn. rewrite Hsel. by right. }
  rewrite Hsel in E. exists b, w1. split; [done|].
  destruct (get_model_returns _ _ _ _ Hr E) as [(_ & Hset & _) _].
  simpl in Hset. split; [by rewrite Hset|].
  rewrite Hcall. split; [done|].
  destruct (provider _ _ _ _) as [msg|[content tcs]]; simpl; eauto.
Qed.

(** ** The graph *)

Lemma nodes_workflow cur :
  nodes workflow !! cur =
    if decide ("action" = cur) then Some tool_node
    else if decide ("agent" = cur) then Some call_model
    else None.
Proof.
  unfold workflow, add_edge, add_conditional_edges, set_entry_point,
    add_edge, add_node, new_StateGraph. simpl.
  rewrite !lookup_insert, lookup_empty. done.
Qed.

Lemma route_agent state :
  route workflow "agent" state =
    match should_continue state with
    | Raise e => Raise e
    | Return key =>
        if decide ("continue" = key) then Return "action"
        else if decide ("end" = key) then Return END
        else Raise (KeyError key)
    end.
Proof.
  unfold route, workflow, add_edge, add_conditional_edges, set_entry_point,
    add_edge, add_node, new_StateGraph. simpl.
  rewrite lookup_insert_eq.
  destruct (should_continue state) as [key|e]; [|done].
  rewrite !lookup_insert, lookup_empty.
  repeat case_decide; done.
Qed.

Lemma route_other cur state :
  cur ≠ "agent" →
  route workflow cur state =
    if decide ("action" = cur) then Return "agent"
    else if decide (START = cur) then Return "agent"
    else Raise (KeyError cur).
Proof.
  intros Hne.
  unfold route, workflow, add_edge, add_conditional_edges, set_entry_point,
    add_edge, add_node, new_StateGraph. simpl.
  rewrite lookup_insert_ne, lookup_empty by done.
  rewrite !lookup_insert, lookup_empty.
  repeat case_decide; done.
Qed.

Lemma should_continue_range state r :
  should_continue state = Return r → r = "end" ∨ r = "continue".
Proof.
  unfold should_continue.
  destruct (last_item (messages state)) as [m|e]; [|done].
  destruct (get_tool_calls m) as [tcs|e]; [|done].
  destruct (negb (truthy tcs)); intros [= <-]; auto.
Qed.

Lemma step_unfold g config cur state w :
  step g config cur state w =
    match nodes g !! cur with
    | None => (Raise (KeyError cur), w)
    | Some fn =>
        match fn state config w with
        | (Return update, w') =>
            match route g cur (apply_update state update) with
            | Return next => (Return (next, apply_update state update), w')
            | Raise e => (Raise e, w')
            end
        | (Raise e, w') => (Raise e, w')
        end
    end.
Proof.
  unfold step. destruct (nodes g !! cur) as [fn|]; [|done].
  unfold bind, lift, ret. destruct (fn state config w) as [[update|e] w']; [|done].
  destruct (route g cur _); done.
Qed.


(** ** Runs *)

Lemma run_unfold fuel g config cur state w :
  run fuel g config cur state w =
    if decide (cur = END) then (Return (Some state), w)
    else
      match fuel with
      | 0 => (Return None, w)
      | S fuel' =>
          match step g config cur state w with
          | (Return ns, w') => run fuel' g config ns.1 ns.2 w'
          | (Raise e, w') => (Raise e, w')
          end
      end.
Proof. destruct fuel; simpl; case_decide; reflexivity. Qed.

Lemma graph_unfold fuel input config w :
  graph fuel input config w =
    run fuel workflow config "agent" {| messages := messages input |} w.
Proof.
  unfold graph, bind, lift. rewrite route_other by done. reflexivity.
Qed.

Lemma step_prefix g config cur state w next state' w' :
  step g config cur state w = (Return (next, state'), w') →
  messages state `prefix_of` messages state'.
Proof.
  rewrite step_unfold. destruct (nodes g !! cur) as [fn|]; [|done].
  destruct (fn state config w) as [[update|e] w1]; [|done].
  destruct (route g cur _); [|done].
  intros [= <- <- <-]. simpl. by eexists.
Qed.

Lemma run_prefix fuel g config cur state w final w' :
  run fuel g config cur state w = (Return (Some final), w') →
  messages state `prefix_of` messages final.
Proof.
  revert cur state w. induction fuel as [|fuel IH]; intros cur state w;
    rewrite run_unfold; case_decide; try done.
  - by intros [= <- <-].
  - by intros [= <- <-].
  - destruct (step g config cur state w) as [[[next state']|e] w1] eqn:E; [|done].
    simpl. intros Hrun. etrans; [by eapply step_prefix | by eapply IH].
Qed.

(** C7: the message list only grows at its end.  [call_model] returns
    exactly one assistant message, an agent step leaves the old list with
    that message added last, and after any step or any run the old list is
    a prefix of the new one. *)
Theorem messages_append_only :
  (∀ state config w update w',
     call_model state config w = (Return update, w') →
     ∃ content tcs, messages update = [AIMessage content tcs]) ∧
  (∀ config state w next state' w',
     step workflow config "agent" state w = (Return (next, state'), w') →
     ∃ content tcs,
       messages state' = messages state ++ [AIMessage content tcs]) ∧
  (∀ config cur state w next state' w',
     step workflow config cur state w = (Return (next, state'), w') →
     messages state `prefix_of` messages state') ∧
  (∀ fuel config cur state w final w',
     run fuel workflow config cur state w = (Return (Some final), w') →
     messages state `prefix_of` messages final) ∧
  (∀ fuel input config w final w',
     graph fuel input config w = (Return (Some final), w') →
     messages input `prefix_of` messages final).
Proof.
  repeat split.
  - intros state config w update w' E.
    destruct (call_model_returns _ _ _ _ _ E) as (content & tcs & ->). eauto.
  - intros config state w next state' w'.
    rewrite step_unfold, nodes_workflow. simpl.
    destruct (call_model state config w) as [[update|e] w1] eqn:E; [|done].
    destruct (call_model_returns _ _ _ _ _ E) as (content & tcs & ->).
    destruct (route workflow "agent" _); [|done].
    intros [= <- <- <-]. simpl. eauto.
  - intros *. apply step_prefix.
  - intros *. apply run_prefix.
  - intros fuel input config w final w'. rewrite graph_unfold.
    intros Hrun. by apply run_prefix in Hrun.
Qed.

(** ** Two runs *)

Lemma step_fst g config cur state w :
  (step g config cur state w).1 =
    match nodes g !! cur with
    | None => Raise (KeyError cur)
    | Some fn =>
        match (fn state config w).1 with
        | Return update =>
            match route g cur (apply_update state update) with
            | Return next => Return (next, apply_update state update)
            | Raise e => Raise e
            end
        | Raise e => Raise e
        end
    end.
Proof.
  rewrite step_unfold. destruct (nodes g !! cur) as [fn|]; [|done].
  destruct (fn state config w) as [[update|e] w1]; [|done].
  simpl. destruct (route g cur _); done.
Qed.

Lemma step_snd g config cur state w :
  (step g config cur state w).2 =
    match nodes g !! cur with
    | None => w
    | Some fn => (fn state config w).2
    end.
Proof.
  rewrite step_unfold. destruct (nodes g !! cur) as [fn|]; [|done].
  destruct (fn state config w) as [[update|e] w1]; [|done].
  simpl. destruct (route g cur _); done.
Qed.

Lemma step_psteps config cur state w :
  rtc pstep w (step workflow config cur state w).2.
Proof.
  rewrite step_snd, nodes_workflow. repeat case_decide.
  - apply rtc_once, pstep_tool_node.
  - apply rtc_once, pstep_call_model.
  - done.
Qed.

Lemma run_psteps fuel config cur state w :
  rtc pstep w (run fuel workflow config cur state w).2.
Proof.
  revert cur state w. induction fuel as [|fuel IH]; intros cur state w;
    rewrite run_unfold; case_decide; try done.
  pose proof (step_psteps config cur state w) as Hs.
  destruct (step workflow config cur state w) as [[ns|e] w1]; [|done].
  simpl in Hs. etrans; [exact Hs | apply IH].
Qed.

Lemma run_tools_deterministic ts tcs w :
  deterministic →
  (run_tools ts tcs w).1 =
    Return (map (λ tc, ToolMessage (executor 0 ts tc) (tc_id tc)) tcs).
Proof.
  intros [_ Hexec]. revert w. induction tcs as [|tc tcs IH]; intros w; [done|].
  simpl. unfold bind at 1. unfold run_tool at 1, emit. simpl.
  set (w1 := {| next_oid := next_oid w; cache := cache w;
                trace := trace w ++ [EToolRun tc] |}).
  specialize (IH w1). unfold bind.
  destruct (run_tools ts tcs w1) as [[ms|e] w2]; simpl in *; [|done].
  simplify_eq. unfold ret. simpl. by rewrite (Hexec _ 0).
Qed.

Lemma tool_node_indep state config w w' :
  deterministic →
  (tool_node state config w).1 = (tool_node state config w').1.
Proof.
  intros Hdet. unfold tool_node, ToolNode, bind, lift.
  destruct (last_item (messages state)) as [[| |content tcs|]|e]; try done.
  pose proof (run_tools_deterministic tools tcs w Hdet) as H1.
  pose proof (run_tools_deterministic tools tcs w' Hdet) as H2.
  destruct (run_tools tools tcs w) as [[ms|e] w1];
    destruct (run_tools tools tcs w') as [[ms'|e'] w1'];
    simpl in *; by simplify_eq.
Qed.

Lemma call_model_indep state config w w' :
  deterministic → cache_ok (cache w) → cache_ok (cache w') →
  (call_model state config w).1 = (call_model state config w').1.
Proof.
  intros [Hprov _] Hok Hok'.
  destruct (call_model_cases_ok state config w Hok)
    as [[Hn ->]|(b & w1 & pre & Hs & E & _ & _ & ->)];
    destruct (call_model_cases_ok state config w' Hok')
    as [[Hn' ->]|(b' & w1' & pre' & Hs' & E' & _ & _ & ->)];
    try done.
  destruct (get_model_returns _ _ _ _ Hok E) as [(_ & Hset & Htools) _].
  destruct (get_model_returns _ _ _ _ Hok' E') as [(_ & Hset' & Htools') _].
  simpl in *. rewrite Hset, Hset', Htools, Htools'.
  by rewrite (Hprov _ (length (trace w1'))).
Qed.

Lemma step_indep config cur state w w' :
  deterministic → cache_ok (cache w) → cache_ok (cache w') →
  (step workflow config cur state w).1 = (step workflow config cur state w').1.
Proof.
  intros Hdet Hok Hok'. rewrite !step_fst, nodes_workflow.
  repeat case_decide; [| |done].
  - by rewrite (tool_node_indep state config w w').
  - by rewrite (call_model_indep state config w w').
Qed.

(** With a deterministic environment the result of a run does not depend
    on the world it starts in. *)
Lemma run_indep fuel config cur state w w' :
  deterministic → cache_ok (cache w) → cache_ok (cache w') →
  (run fuel workflow config cur state w).1 =
  (run fuel workflow config cur state w').1.
Proof.
  intros Hdet. revert cur state w w'.
  induction fuel as [|fuel IH]; intros cur state w w' Hok Hok';
    rewrite !run_unfold; case_decide; try done.
  pose proof (step_indep config cur state w w' Hdet Hok Hok') as Hfst.
  pose proof (step_psteps config cur state w) as Hs.
  pose proof (step_psteps config cur state w') as Hs'.
  destruct (step workflow config cur state w) as [[ns|e] w1];
    destruct (step workflow config cur state w') as [[ns'|e'] w1'];
    simpl in *; simplify_eq; [|done].
  apply IH; eapply psteps_cache_ok; eauto.
Qed.

(** C9: with a deterministic model and tool executor, a second run of the
    graph on the same input and configuration, started in the world the
    first run left, gives the same result as the first; so does a run
    started in any other world the process can be in. *)
Theorem graph_idempotent fuel input config w w' :
  reachable w → reachable w' → deterministic →
  (graph fuel input config (graph fuel input config w).2).1 =
    (graph fuel input config w).1 ∧
  (graph fuel input config w').1 = (graph fuel input config w).1.
Proof.
  intros Hr Hr' Hdet.
  apply reachable_cache_ok in Hr. apply reachable_cache_ok in Hr'.
  rewrite !graph_unfold. split; apply run_indep; try done.
  eapply psteps_cache_ok; [apply run_psteps | done].
Qed.

(** ** More about the model selector *)

Lemma built_app cls t1 t2 : built cls (t1 ++ t2) = built cls t1 + built cls t2.
Proof. induction t1 as [|e t1 IH]; simpl; lia. Qed.

Lemma built_tool_runs cls tcs : built cls (map EToolRun tcs) = 0.
Proof. induction tcs as [|tc tcs IH]; simpl; done. Qed.

Lemma invocations_tool_runs tcs : invocations (map EToolRun tcs) = [].
Proof. induction tcs as [|tc tcs IH]; simpl; done. Qed.

Lemma cached_touch name key b c :
  assoc name c = Some b → cached key (lru_touch name b c) = cached key c.
Proof.
  intros Hb. unfold cached, lru_touch. simpl.
  destruct (decide (name = key)) as [->|Hne].
  - by rewrite Hb.
  - by rewrite assoc_drop_key_ne.
Qed.

Lemma get_model_built_ok name w :
  cache_ok (cache w) → built_ok w → built_ok (_get_model name w).2.
Proof.
  intros Hok [Ho Ha].
  destruct (get_model_cases name w) as [(b & Hb & ->)|[(Hb & Hs & ->)|(Hb & Hs & ->)]];
    simpl; [| |done].
  - split; simpl; by rewrite cached_touch.
  - apply cache_ok_length in Hok as Hlen.
    unfold built_ok. simpl. unfold lru_store. rewrite decide_False by lia.
    rewrite !built_app, Ho, Ha. unfold cached in *. simpl.
    destruct Hs as [-> | ->]; simpl; rewrite Hb; simpl; split; lia.
Qed.

Lemma call_model_world state config w :
  (call_model state config w).2 =
    match _get_model (selected_name config) w with
    | (Return model, w1) =>
        {| next_oid := next_oid w1; cache := cache w1;
           trace := trace w1 ++ [EInvoke model (outgoing state)] |}
    | (Raise e, w1) => w1
    end.
Proof.
  rewrite call_model_unfold.
  destruct (_get_model _ w) as [[model|e] w1]; [|done].
  rewrite invoke_unfold.
  destruct (provider _ _ _ _) as [msg|[content tcs]]; reflexivity.
Qed.

Lemma run_tools_world ts tcs w :
  (run_tools ts tcs w).2 =
    {| next_oid := next_oid w; cache := cache w;
       trace := trace w ++ map EToolRun tcs |}.
Proof.
  revert w. induction tcs as [|tc tcs IH]; intros w; simpl.
  - rewrite app_nil_r. by destruct w.
  - unfold bind at 1. unfold run_tool at 1, emit. simpl.
    set (w1 := {| next_oid := next_oid w; cache := cache w;
                  trace := trace w ++ [EToolRun tc] |}).
    specialize (IH w1). unfold bind.
    destruct (run_tools ts tcs w1) as [[ms|e] w2]; simpl in *; subst w2;
      simpl; by rewrite <- app_assoc.
Qed.

(** The action node only adds tool runs to the trace. *)
Lemma tool_node_world state config w :
  ∃ tcs, (tool_node state config w).2 =
           {| next_oid := next_oid w; cache := cache w;
              trace := trace w ++ map EToolRun tcs |}.
Proof.
  assert (w = {| next_oid := next_oid w; cache := cache w;
                 trace := trace w ++ map EToolRun [] |}) as Hw.
  { simpl. rewrite app_nil_r. by destruct w. }
  unfold tool_node, ToolNode, bind, lift.
  destruct (last_item (messages state)) as [[| |content tcs|]|e];
    try (by exists []).
  exists tcs. pose proof (run_tools_world tools tcs w) as Hrun.
  destruct (run_tools tools tcs w) as [[ms|e] w1]; simpl in *; by subst.
Qed.

Lemma pstep_built_ok w w' :
  pstep w w' → cache_ok (cache w) → built_ok w → built_ok w'.
Proof.
  intros [name w0|state config w0|state config w0] Hok Hb.
  - by apply get_model_built_ok.
  - rewrite call_model_world.
    pose proof (get_model_built_ok (selected_name config) w0 Hok Hb) as Hb1.
    destruct (_get_model _ w0) as [[model|e] w1]; [|done].
    destruct Hb1 as [Ho Ha]. split; simpl in *;
      rewrite built_app; simpl; lia.
  - destruct (tool_node_world state config w0) as [tcs ->].
    destruct Hb as [Ho Ha]. split; simpl;
      rewrite built_app, built_tool_runs; lia.
Qed.

Lemma reachable_built_ok w : reachable w → built_ok w.
Proof.
  intros Hr.
  assert (cache_ok (cache init_world) ∧ built_ok init_world) as Hinit.
  { split; [apply cache_ok_nil | by split]. }
  revert Hinit. unfold reachable in Hr.
  induction Hr as [w|w w1 w2 Hstep Hsteps IH]; [by intros [_ ?]|].
  intros [Hok Hb]. apply IH.
  split; [by eapply pstep_cache_ok | by eapply pstep_built_ok].
Qed.

(** X1: only the two supported names are ever stored: the cache of a
    running process holds at most two entries, with distinct keys, each
    "openai" or "anthropic"; the bound of four is never reached. *)
Theorem cache_holds_supported_names w :
  reachable w →
  length (cache w) ≤ 2 ∧
  NoDup (cache w).*1 ∧
  (∀ key b, (key, b) ∈ cache w → key = "openai" ∨ key = "anthropic").
Proof.
  intros Hr. apply reachable_cache_ok in Hr as Hok.
  split; [by apply cache_ok_length|].
  destruct Hok as [Hnd Hall]. split; [done|].
  intros key b Hin. rewrite Forall_forall in Hall.
  by destruct (Hall _ Hin) as [Hs _].
Qed.

(** X2: whatever was selected before, a successful call of [_get_model] was
    made with a supported name and returns the client of that name:
    [ChatOpenAI] with model "gpt-4o" for "openai", [ChatAnthropic] with model
    "claude-3-sonnet-20240229" for "anthropic". *)
Theorem get_model_backend name w b w' :
  reachable w → _get_model name w = (Return b, w') →
  (name = "openai" ∧
   ms_class (cm_settings (rb_bound b)) = ChatOpenAI ∧
   model_name (cm_settings (rb_bound b)) = "gpt-4o") ∨
  (name = "anthropic" ∧
   ms_class (cm_settings (rb_bound b)) = ChatAnthropic ∧
   model_name (cm_settings (rb_bound b)) = "claude-3-sonnet-20240229").
Proof.
  intros Hr E. apply reachable_cache_ok in Hr.
  destruct (get_model_returns _ _ _ _ Hr E) as [(Hs & Hset & _) _].
  simpl in *. rewrite Hset. destruct Hs as [-> | ->]; [left | right]; done.
Qed.

(** X3: a process builds each chat model at most once; after a first call
    with a supported name, a later call with that name builds no object and
    adds nothing to the trace. *)
Theorem get_model_builds_once name w :
  reachable w → supported name →
  built ChatOpenAI (trace w) ≤ 1 ∧
  built ChatAnthropic (trace w) ≤ 1 ∧
  (∀ w2, rtc pstep (_get_model name w).2 w2 →
     trace (_get_model name w2).2 = trace w2 ∧
     next_oid (_get_model name w2).2 = next_oid w2 ∧
     built ChatOpenAI (trace w2) ≤ 1 ∧
     built ChatAnthropic (trace w2) ≤ 1).
Proof.
  intros Hr Hs.
  assert (∀ w0, reachable w0 →
            built ChatOpenAI (trace w0) ≤ 1 ∧
            built ChatAnthropic (trace w0) ≤ 1) as Hle.
  { intros w0 Hr0. destruct (reachable_built_ok w0 Hr0) as [Ho Ha].
    rewrite Ho, Ha. unfold cached.
    split; destruct (assoc _ _); lia. }
  destruct (Hle w Hr) as [Hlo Hla]. split; [done|]. split; [done|].
  intros w2 Hsteps.
  pose proof (reachable_cache_ok w Hr) as Hok.
  destruct (get_model_supported name w Hok Hs) as (b & w1 & E).
  destruct (get_model_returns _ _ _ _ Hok E) as [_ Hb].
  pose proof (get_model_cache_ok name w Hok) as Hok1.
  rewrite E in Hsteps, Hok1. simpl in *.
  pose proof (psteps_keeps _ _ _ _ Hsteps Hok1 Hb) as Hb2.
  rewrite (get_model_hit _ _ _ Hb2). simpl.
  split; [done|]. split; [done|].
  apply Hle. unfold reachable. etrans; [exact Hr|].
  etrans; [|exact Hsteps].
  apply rtc_once. replace w1 with (_get_model name w).2 by (by rewrite E).
  apply pstep_get_model.
Qed.

(** ** More about the agent step *)

Lemma should_continue_snoc l content tcs :
  should_continue {| messages := l ++ [AIMessage content tcs] |} =
    Return (match tcs with [] => "end" | _ :: _ => "continue" end).
Proof.
  unfold should_continue, last_item. simpl. rewrite last_snoc. simpl.
  by destruct tcs.
Qed.

Lemma route_agent_answer l content tcs :
  route workflow "agent" {| messages := l ++ [AIMessage content tcs] |} =
    Return (match tcs with [] => END | _ :: _ => "action" end).
Proof.
  rewrite route_agent, should_continue_snoc. by destruct tcs.
Qed.

Lemma agent_step_unfold state config w :
  step workflow config "agent" state w =
    match call_model state config w with
    | (Return update, w') =>
        match route workflow "agent" (apply_update state update) with
        | Return next => (Return (next, apply_update state update), w')
        | Raise e => (Raise e, w')
        end
    | (Raise e, w') => (Raise e, w')
    end.
Proof. rewrite step_unfold, nodes_workflow. reflexivity. Qed.

Lemma graph_first_step fuel input config w :
  graph (S fuel) input config w =
    match step workflow config "agent" {| messages := messages input |} w with
    | (Return ns, w') => run fuel workflow config ns.1 ns.2 w'
    | (Raise e, w') => (Raise e, w')
    end.
Proof. rewrite graph_unfold, run_unfold. reflexivity. Qed.

(** With a supported name the selected client has the settings of the name
    and is invoked once, after which it is in the cache. *)
Lemma call_model_supported state config w :
  cache_ok (cache w) → supported (selected_name config) →
  ∃ b w1 pre,
    trace w1 = trace w ++ pre ∧ invocations pre = [] ∧
    assoc (selected_name config) (cache w1) = Some b ∧
    call_model state config w =
      (match provider (length (trace w1)) (settings_for (selected_name config))
               tools (outgoing state) with
       | inl msg => Raise (UpstreamError msg)
       | inr (content, tcs) => Return {| messages := [AIMessage content tcs] |}
       end,
       {| next_oid := next_oid w1; cache := cache w1;
          trace := trace w1 ++ [EInvoke b (outgoing state)] |}).
Proof.
  intros Hok Hs.
  destruct (call_model_cases_ok state config w Hok)
    as [[Hn _]|(b & w1 & pre & _ & E & Ht & Hpre & Hcall)]; [done|].
  destruct (get_model_returns _ _ _ _ Hok E) as [(_ & Hset & Htools) Hb].
  simpl in *. exists b, w1, pre. rewrite Hcall, Hset, Htools. done.
Qed.

(** X4: a run whose configuration names an unsupported backend fails with
    the unsupported-backend error in its first step and leaves the world as
    it was: no client is built and no model is called. *)
Theorem graph_rejects_unsupported fuel input config w :
  reachable w →
  selected_name config ≠ "anthropic" → selected_name config ≠ "openai" →
  graph (S fuel) input config w =
    (Raise (ValueError ("Unsupported model type: " +:+ selected_name config)),
     w).
Proof.
  intros Hr Ha Ho. apply reachable_cache_ok in Hr.
  assert (¬ supported (selected_name config)) as Hn by (intros [?|?]; done).
  rewrite graph_first_step, agent_step_unfold, call_model_unfold.
  by rewrite (get_model_unsupported _ _ Hr Hn).
Qed.

(** X5: an agent step of the graph never calls [should_continue] on a state
    it cannot judge: when the step succeeds the state ends with the model's
    answer, the predicate returns "end" or "continue" by the answer's tool
    calls and the next node is chosen accordingly; when it fails, the error
    is the unsupported-backend error or the provider's. *)
Theorem agent_step_outcomes state config w :
  reachable w →
  match (step workflow config "agent" state w).1 with
  | Return (next, state') =>
      ∃ content tcs,
        messages state' = messages state ++ [AIMessage content tcs] ∧
        should_continue state' =
          Return (match tcs with [] => "end" | _ :: _ => "continue" end) ∧
        next = match tcs with [] => END | _ :: _ => "action" end
  | Raise e => (∃ msg, e = ValueError msg) ∨ (∃ msg, e = UpstreamError msg)
  end.
Proof.
  intros Hr. apply reachable_cache_ok in Hr. rewrite agent_step_unfold.
  destruct (call_model_cases_ok state config w Hr)
    as [[Hn ->]|(b & w1 & pre & _ & _ & _ & _ & ->)]; [simpl; eauto|].
  destruct (provider _ _ _ _) as [msg|[content tcs]]; [simpl; eauto|].
  change (apply_update state {| messages := [AIMessage content tcs] |})
    with {| messages := messages state ++ [AIMessage content tcs] |}.
  rewrite route_agent_answer. simpl.
  exists content, tcs. by rewrite should_continue_snoc.
Qed.

(** X6: when the model answers the first prompt without a tool call, the run
    ends after that one agent step: the result is the input followed by the
    answer, and the model was called exactly once. *)
Theorem graph_single_answer fuel input config w content :
  reachable w → supported (selected_name config) →
  (∀ t, provider t (settings_for (selected_name config)) tools
          (outgoing input) = inr (content, [])) →
  (graph (S fuel) input config w).1 =
    Return (Some {| messages := messages input ++ [AIMessage content []] |}) ∧
  ∃ new,
    trace (graph (S fuel) input config w).2 = trace w ++ new ∧
    invocations new = [outgoing input].
Proof.
  intros Hr Hs Hprov. apply reachable_cache_ok in Hr.
  rewrite graph_first_step, agent_step_unfold.
  destruct (call_model_supported {| messages := messages input |} config w Hr Hs)
    as (b & w1 & pre & Ht & Hpre & _ & ->).
  change (outgoing {| messages := messages input |}) with (outgoing input).
  rewrite Hprov.
  change (apply_update {| messages := messages input |}
            {| messages := [AIMessage content []] |})
    with {| messages := messages input ++ [AIMessage content []] |}.
  rewrite route_agent_answer. simpl. rewrite run_unfold. simpl.
  split; [done|].
  exists (pre ++ [EInvoke b (outgoing input)]).
  rewrite Ht, <- app_assoc. split; [done|].
  by rewrite invocations_app, Hpre.
Qed.

(** X7: when the provider fails on the first prompt, the run fails with the
    provider's error after that one call: nothing is retried, and the client
    stays in the cache for later runs. *)
Theorem graph_upstream_failure fuel input config w msg :
  reachable w → supported (selected_name config) →
  (∀ t, provider t (settings_for (selected_name config)) tools
          (outgoing input) = inl msg) →
  (graph (S fuel) input config w).1 = Raise (UpstreamError msg) ∧
  (∃ new,
     trace (graph (S fuel) input config w).2 = trace w ++ new ∧
     invocations new = [outgoing input]) ∧
  is_Some (assoc (selected_name config)
             (cache (graph (S fuel) input config w).2)).
Proof.
  intros Hr Hs Hprov. apply reachable_cache_ok in Hr.
  rewrite graph_first_step, agent_step_unfold.
  destruct (call_model_supported {| messages := messages input |} config w Hr Hs)
    as (b & w1 & pre & Ht & Hpre & Hb & ->).
  change (outgoing {| messages := messages input |}) with (outgoing input).
  rewrite Hprov. simpl. split; [done|]. split; [|eauto].
  exists (pre ++ [EInvoke b (outgoing input)]).
  rewrite Ht, <- app_assoc. split; [done|].
  by rewrite invocations_app, Hpre.
Qed.

(** ** More about runs *)

Lemma get_model_trace name w :
  ∃ pre, trace (_get_model name w).2 = trace w ++ pre ∧ invocations pre = [].
Proof.
  destruct (get_model_cases name w) as [(b & Hb & ->)|[(Hb & Hs & ->)|(Hb & Hs & ->)]];
    simpl.
  - exists []. by rewrite app_nil_r.
  - eexists [_; _]. by rewrite <- app_assoc.
  - exists []. by rewrite app_nil_r.
Qed.

Lemma call_model_trace state config w :
  ∃ new,
    trace (call_model state config w).2 = trace w ++ new ∧
    ∀ input, input ∈ invocations new → input = outgoing state.
Proof.
  rewrite call_model_world.
  destruct (get_model_trace (selected_name config) w) as (pre & Ht & Hpre).
  destruct (_get_model _ w) as [[model|e] w1]; simpl in *.
  - exists (pre ++ [EInvoke model (outgoing state)]).
    rewrite Ht, <- app_assoc. split; [done|].
    rewrite invocations_app, Hpre. simpl.
    by intros input ->%list_elem_of_singleton.
  - exists pre. split; [done|]. rewrite Hpre. by intros input Hin%elem_of_nil.
Qed.

Lemma step_trace config cur state w :
  ∃ new,
    trace (step workflow config cur state w).2 = trace w ++ new ∧
    ∀ input, input ∈ invocations new → input = outgoing state.
Proof.
  rewrite step_snd, nodes_workflow. repeat case_decide.
  - destruct (tool_node_world state config w) as [tcs ->]. simpl.
    exists (map EToolRun tcs). split; [done|].
    rewrite invocations_tool_runs. by intros input Hin%elem_of_nil.
  - apply call_model_trace.
  - exists []. rewrite app_nil_r. split; [done|]. by intros input Hin%elem_of_nil.
Qed.

Lemma trace_unchanged (P : list MessageLike → Prop) (w : World) :
  ∃ new, trace w = trace w ++ new ∧ ∀ input, input ∈ invocations new → P input.
Proof.
  exists []. rewrite app_nil_r. split; [done|]. by intros input Hin%elem_of_nil.
Qed.

Lemma run_trace fuel config cur state w :
  ∃ new,
    trace (run fuel workflow config cur state w).2 = trace w ++ new ∧
    ∀ input, input ∈ invocations new →
      ∃ msgs, input = [MDict "system" system_prompt] ++ map MObj msgs ∧
              messages state `prefix_of` msgs.
Proof.
  revert cur state w.
  induction fuel as [|fuel IH]; intros cur state w;
    rewrite run_unfold; case_decide; simpl;
    try apply (trace_unchanged (λ input, ∃ msgs, _)).
  destruct (step_trace config cur state w) as (new1 & Ht1 & Hin1).
  destruct (step workflow config cur state w) as [[[next state']|e] w1] eqn:E;
    simpl in *.
  - destruct (IH next state' w1) as (new2 & Ht2 & Hin2).
    exists (new1 ++ new2). rewrite Ht2, Ht1, <- app_assoc. split; [done|].
    intros input. rewrite invocations_app, elem_of_app. intros [Hin|Hin].
    + exists (messages state). split; [by apply Hin1 | done].
    + destruct (Hin2 input Hin) as (msgs & -> & Hpre).
      exists msgs. split; [done|]. etrans; [|exact Hpre].
      by eapply step_prefix.
  - exists new1. split; [done|]. intros input Hin.
    exists (messages state). split; [by apply Hin1 | done].
Qed.

(** X8: every model call of a run gets the system prompt exactly once, as
    the first entry, followed by message objects only: a list that extends
    the input of the run.  The prompt does not pile up from one agent step to
    the next. *)
Theorem graph_prompt_once fuel input config w :
  ∃ new,
    trace (graph fuel input config w).2 = trace w ++ new ∧
    ∀ sent, sent ∈ invocations new →
      ∃ msgs, sent = [MDict "system" system_prompt] ++ map MObj msgs ∧
              messages input `prefix_of` msgs.
Proof.
  rewrite graph_unfold.
  destruct (run_trace fuel config "agent" {| messages := messages input |} w)
    as (new & Ht & Hin).
  exists new. split; [exact Ht | exact Hin].
Qed.

Lemma should_continue_end_inv state :
  should_continue state = Return "end" →
  ∃ content, last (messages state) = Some (AIMessage content []).
Proof.
  unfold should_continue, last_item.
  destruct (last (messages state)) as [[| |content tcs|]|]; try done.
  simpl. destruct tcs; [eauto | done].
Qed.

Lemma step_to_end config cur state w state' w' :
  step workflow config cur state w = (Return (END, state'), w') →
  should_continue state' = Return "end".
Proof.
  rewrite step_unfold, nodes_workflow. repeat case_decide; subst; [| |done].
  - destruct (tool_node state config w) as [[update|e] w1]; [|done].
    rewrite route_other by done. done.
  - destruct (call_model state config w) as [[update|e] w1]; [|done].
    rewrite route_agent.
    destruct (should_continue (apply_update state update)) as [key|e] eqn:E;
      [|done].
    destruct (should_continue_range _ _ E) as [-> | ->]; simpl.
    + by intros [= <- <-].
    + intros [=].
Qed.

Lemma run_final fuel config cur state w final w' :
  cur ≠ END →
  run fuel workflow config cur state w = (Return (Some final), w') →
  should_continue final = Return "end".
Proof.
  revert cur state w. induction fuel as [|fuel IH]; intros cur state w Hne;
    rewrite run_unfold, decide_False by done; [done|].
  destruct (step workflow config cur state w) as [[[next state']|e] w1] eqn:E;
    [|done].
  simpl. destruct (decide (next = END)) as [->|Hnext].
  - rewrite run_unfold, decide_True by done. intros [= <- <-].
    by eapply step_to_end.
  - by apply IH.
Qed.

(** X9: a run that finishes ends on a final answer: the last message of the
    result is an assistant message without tool calls, the one on which
    [should_continue] returned "end". *)
Theorem graph_ends_on_final_answer fuel input config w final w' :
  graph fuel input config w = (Return (Some final), w') →
  should_continue final = Return "end" ∧
  ∃ content, last (messages final) = Some (AIMessage content []).
Proof.
  rewrite graph_unfold. intros Hrun.
  apply run_final in Hrun; [|done].
  split; [done | by apply should_continue_end_inv].
Qed.

End Agent.

(** ** The statements at a concrete run

    The example environment, the question about the weather in Boston, and
    the process at its start. *)

Lemma should_continue_assistant_witness :
  last (messages demo_final) = Some (AIMessage "It is sunny in Boston." []) ∧
  should_continue demo_final = Return "end".
Proof.
  split; [reflexivity|].
  apply (should_continue_assistant demo_final "It is sunny in Boston." []);
    reflexivity.
Defined.

Lemma get_model_rejects_unsupported_witness :
  reachable demo_provider demo_executor init_world ∧
  _get_model "gemini" init_world =
    (Raise (ValueError "Unsupported model type: gemini"), init_world).
Proof.
  split; [apply rtc_refl|].
  apply (get_model_rejects_unsupported demo_provider demo_executor
           "gemini" init_world); [apply rtc_refl | done | done].
Defined.

Lemma get_model_settings_witness :
  supported "anthropic" ∧
  ∃ b w', _get_model "anthropic" init_world = (Return b, w') ∧
    temperature (cm_settings (rb_bound b)) = 0%Z ∧
    rb_tools b = [TavilySearchResults 1].
Proof.
  split; [by right|].
  apply (get_model_settings demo_provider demo_executor "anthropic" init_world);
    [by right | apply rtc_refl].
Defined.

Lemma get_model_memoized_witness :
  reachable demo_provider demo_executor init_world ∧
  supported "openai" ∧
  ∃ b w1, _get_model "openai" init_world = (Return b, w1) ∧
    ∀ w2, rtc (pstep demo_provider demo_executor) w1 w2 →
      (_get_model "openai" w2).1 = Return b ∧ length (cache w2) ≤ 4.
Proof.
  split; [apply rtc_refl|]. split; [by left|].
  apply (get_model_memoized demo_provider demo_executor "openai" init_world);
    [apply rtc_refl | by left].
Defined.

Lemma call_model_prompt_witness :
  ∃ new,
    trace (call_model demo_provider demo_input demo_config init_world).2 = new ∧
    invocations new =
      [[MDict "system" system_prompt;
        MObj (HumanMessage "What's the weather in Boston?")]].
Proof.
  destruct (call_model_prompt demo_provider demo_input demo_config init_world)
    as (new & Htrace & _ & Hret).
  exists new. split; [exact Htrace|].
  apply (Hret {| messages := [AIMessage "" [demo_call]] |}).
  vm_compute. reflexivity.
Defined.

Lemma call_model_default_backend_witness :
  reachable demo_provider demo_executor init_world ∧
  (∅ : gmap string (gmap string string)) !! "configurable" = None ∧
  call_model demo_provider demo_input ∅ init_world =
    call_model demo_provider demo_input
      {[ "configurable" := {[ "model_name" := "anthropic" ]} ]} init_world.
Proof.
  split; [apply rtc_refl|]. split; [reflexivity|].
  apply (call_model_default_backend demo_provider demo_executor demo_input ∅
           init_world); [apply rtc_refl | left; reflexivity].
Defined.


Lemma messages_append_only_witness :
  (graph demo_provider demo_executor 5 demo_input demo_config init_world).1 =
    Return (Some demo_final) ∧
  messages demo_input `prefix_of` messages demo_final.
Proof.
  split; [vm_compute; reflexivity|].
  destruct (messages_append_only demo_provider demo_executor)
    as (_ & _ & _ & _ & Hgraph).
  eapply (Hgraph 5 demo_input demo_config init_world).
  vm_compute. reflexivity.
Defined.

Lemma demo_deterministic : deterministic demo_provider demo_executor.
Proof. split; reflexivity. Qed.

Lemma graph_idempotent_witness :
  reachable demo_provider demo_executor init_world ∧
  deterministic demo_provider demo_executor ∧
  (graph demo_provider demo_executor 5 demo_input demo_config
     (graph demo_provider demo_executor 5 demo_input demo_config init_world).2).1 =
  (graph demo_provider demo_executor 5 demo_input demo_config init_world).1.
Proof.
  split; [apply rtc_refl|]. split; [apply demo_deterministic|].
  apply (graph_idempotent demo_provider demo_executor 5 demo_input demo_config
           init_world init_world);
    [apply rtc_refl | apply rtc_refl | apply demo_deterministic].
Defined.

(** ** The further statements at concrete runs *)

Lemma demo_world_reachable :
  reachable demo_provider demo_executor demo_world.
Proof.
  unfold reachable, demo_world.
  eapply rtc_l; [apply pstep_get_model|].
  eapply rtc_l; [apply pstep_get_model|].
  apply rtc_refl.
Qed.

Lemma cache_holds_supported_names_witness :
  reachable demo_provider demo_executor demo_world ∧
  length (cache demo_world) ≤ 2 ∧
  NoDup (cache demo_world).*1 ∧
  (∀ key b, (key, b) ∈ cache demo_world → key = "openai" ∨ key = "anthropic").
Proof.
  split; [apply demo_world_reachable|].
  apply (cache_holds_supported_names demo_provider demo_executor demo_world).
  apply demo_world_reachable.
Defined.

Lemma get_model_backend_witness :
  reachable demo_provider demo_executor demo_world ∧
  ∃ b w', _get_model "openai" demo_world = (Return b, w') ∧
    ((("openai" : string) = "openai" ∧
      ms_class (cm_settings (rb_bound b)) = ChatOpenAI ∧
      model_name (cm_settings (rb_bound b)) = "gpt-4o") ∨
     (("openai" : string) = "anthropic" ∧
      ms_class (cm_settings (rb_bound b)) = ChatAnthropic ∧
      model_name (cm_settings (rb_bound b)) = "claude-3-sonnet-20240229")).
Proof.
  split; [apply demo_world_reachable|].
  eexists _, _. split; [vm_compute; reflexivity|].
  eapply (get_model_backend demo_provider demo_executor "openai" demo_world);
    [apply demo_world_reachable | vm_compute; reflexivity].
Defined.

Lemma get_model_builds_once_witness :
  reachable demo_provider demo_executor init_world ∧
  supported "openai" ∧
  ∀ w2, rtc (pstep demo_provider demo_executor)
          (_get_model "openai" init_world).2 w2 →
    trace (_get_model "openai" w2).2 = trace w2 ∧
    next_oid (_get_model "openai" w2).2 = next_oid w2 ∧
    built ChatOpenAI (trace w2) ≤ 1 ∧
    built ChatAnthropic (trace w2) ≤ 1.
Proof.
  split; [apply rtc_refl|]. split; [by left|].
  apply (get_model_builds_once demo_provider demo_executor "openai" init_world);
    [apply rtc_refl | by left].
Defined.

Lemma graph_rejects_unsupported_witness :
  reachable demo_provider demo_executor demo_world ∧
  selected_name demo_bad_config = "gemini" ∧
  graph demo_provider demo_executor 5 demo_input demo_bad_config demo_world =
    (Raise (ValueError "Unsupported model type: gemini"), demo_world).
Proof.
  split; [apply demo_world_reachable|]. split; [reflexivity|].
  apply (graph_rejects_unsupported demo_provider demo_executor 4 demo_input
           demo_bad_config demo_world);
    [apply demo_world_reachable | done | done].
Defined.

Lemma agent_step_outcomes_witness :
  reachable demo_provider demo_executor init_world ∧
  match (step (workflow demo_provider demo_executor) demo_config "agent"
           demo_input init_world).1 with
  | Return (next, state') =>
      ∃ content tcs,
        messages state' = messages demo_input ++ [AIMessage content tcs] ∧
        should_continue state' =
          Return (match tcs with [] => "end" | _ :: _ => "continue" end) ∧
        next = match tcs with [] => END | _ :: _ => "action" end
  | Raise e => (∃ msg, e = ValueError msg) ∨ (∃ msg, e = UpstreamError msg)
  end.
Proof.
  split; [apply rtc_refl|].
  apply (agent_step_outcomes demo_provider demo_executor demo_input demo_config
           init_world).
  apply rtc_refl.
Defined.

Lemma graph_single_answer_witness :
  reachable demo_plain_provider demo_executor init_world ∧
  supported (selected_name demo_config) ∧
  (graph demo_plain_provider demo_executor 1 demo_hello demo_config
     init_world).1 =
    Return (Some {| messages := [HumanMessage "Say hello.";
                                 AIMessage "Hello." []] |}).
Proof.
  split; [apply rtc_refl|]. split; [by left|].
  apply (graph_single_answer demo_plain_provider demo_executor 0 demo_hello
           demo_config init_world "Hello.");
    [apply rtc_refl | by left | reflexivity].
Defined.

Lemma graph_upstream_failure_witness :
  reachable demo_failing_provider demo_executor init_world ∧
  supported (selected_name demo_config) ∧
  (graph demo_failing_provider demo_executor 1 demo_hello demo_config
     init_world).1 = Raise (UpstreamError "overloaded") ∧
  is_Some (assoc (selected_name demo_config)
             (cache (graph demo_failing_provider demo_executor 1 demo_hello
                       demo_config init_world).2)).
Proof.
  split; [apply rtc_refl|]. split; [by left|].
  destruct (graph_upstream_failure demo_failing_provider demo_executor 0
              demo_hello demo_config init_world "overloaded")
    as (Hres & _ & Hcached); [apply rtc_refl | by left | reflexivity |].
  split; [exact Hres | exact Hcached].
Defined.

Lemma graph_prompt_once_witness :
  ∃ new,
    trace (graph demo_provider demo_executor 5 demo_input demo_config
             init_world).2 = new ∧
    ∀ sent, sent ∈ invocations new →
      ∃ msgs, sent = [MDict "system" system_prompt] ++ map MObj msgs ∧
              messages demo_input `prefix_of` msgs.
Proof.
  destruct (graph_prompt_once demo_provider demo_executor 5 demo_input
              demo_config init_world) as (new & Ht & Hin).
  exists new. split; [exact Ht | exact Hin].
Defined.

Lemma graph_ends_on_final_answer_witness :
  (graph demo_provider demo_executor 5 demo_input demo_config init_world).1 =
    Return (Some demo_final) ∧
  should_continue demo_final = Return "end" ∧
  ∃ content, last (messages demo_final) = Some (AIMessage content []).
Proof.
  split; [vm_compute; reflexivity|].
  eapply (graph_ends_on_final_answer demo_provider demo_executor 5 demo_input
            demo_config init_world demo_final).
  vm_compute. reflexivity.
Defined.
